(** * MicroTeX box model: [src/box/box.cpp] and the [TeXConstants] enumeration

    A shallow embedding of the box tree of the layout engine.  Boxes are
    C++ objects held through [sptr<Box>] (a [shared_ptr]), so two handles
    may name the same object.  The embedding therefore keeps an explicit
    store of objects indexed by addresses; every method is a computation
    over that store.  Virtual dispatch on [lastFontId] is a case analysis
    on the dynamic class of the receiver. *)

From Stdlib Require Import ZArith String.
From stdpp Require Import gmap list.

Local Open Scope Z_scope.

(** ** The constant vocabulary ([src/common.h], [enum TeXConstants]) *)

Module TeXConstants.

(** An enumerator either carries an explicit initialiser ([Some v]) or
    none ([None]); the latter takes the value of its predecessor plus
    one, and the very first enumerator without initialiser would be 0. *)
Definition enumerator : Type := string * option Z.

Definition declaration : list enumerator :=
  [ ("ALIGN_LEFT", Some 0); ("ALIGN_RIGHT", None); ("ALIGN_CENTER", None);
    ("ALIGN_TOP", None); ("ALIGN_BOTTOM", None); ("ALIGN_NONE", None);
    ("THINMUSKIP", Some 1); ("MEDMUSKIP", Some 2); ("THICKMUSKIP", Some 3);
    ("NEGTHINMUSKIP", Some (-1)); ("NEGMEDMUSKIP", Some (-2));
    ("NEGTHICKMUSKP", Some (-3));
    ("QUAD", Some 3);
    ("SCRIPT_NORMAL", Some 0); ("SCRIPT_NOLIMITS", None);
    ("SCRIPT_LIMITS", None);
    ("TYPE_ORDINARY", Some 0); ("TYPE_BIG_OPERATOR", None);
    ("TYPE_BINARY_OPERATOR", None); ("TYPE_RELATION", None);
    ("TYPE_OPENING", None); ("TYPE_CLOSING", None);
    ("TYPE_PUNCTUATION", None); ("TYPE_INNER", None);
    ("TYPE_ACCENT", Some 10); ("TYPE_INTERTEXT", None);
    ("TYPE_MULTICOLUMN", None); ("TYPE_HLINE", None);
    ("TYPE_MULTIROW", None);
    ("DELIM_BRACE", Some 0); ("DELIM_SQUARE_BRACKET", None);
    ("DELIM_BRACKET", None); ("DELIM_LEFT_ARROW", None);
    ("DELIM_RIGHT_ARROW", None); ("DELIM_LEFT_RIGHT_ARROW", None);
    ("DELIM_DOUBLE_LEFT_ARROW", None); ("DELIM_DOUBLE_RIGHT_ARROW", None);
    ("DELIM_DOUBLE_LEFT_RIGHT_ARROW", None); ("DELIM_SIGNLE_LINE", None);
    ("DELIM_DOUBLE_LINE", None);
    ("STYLE_DISPLAY", Some 0); ("STYLE_TEXT", Some 2);
    ("STYLE_SCRIPT", Some 4); ("STYLE_SCRIPT_SCRIPT", Some 6);
    ("UNIT_EM", Some 0); ("UNIT_EX", None); ("UNIT_PIXEL", None);
    ("UNIT_POINT", None); ("UNIT_PICA", None); ("UNIT_MU", None);
    ("UNIT_CM", None); ("UNIT_MM", None); ("UNIT_IN", None);
    ("UNIT_SP", None); ("UNIT_PT", None); ("UNIT_DD", None);
    ("UNIT_CC", None); ("UNIT_X8", None) ]%string.

(** The values the compiler assigns, given the value [next] an
    enumerator without initialiser would receive. *)
Fixpoint assign (next : Z) (decl : list enumerator) : list (string * Z) :=
  match decl with
  | [] => []
  | (name, init) :: rest =>
      let v := match init with Some v => v | None => next end in
      (name, v) :: assign (v + 1) rest
  end.

Definition values : list (string * Z) := assign 0 declaration.

Fixpoint find_enumerator (name : string) (vs : list (string * Z)) : option Z :=
  match vs with
  | [] => None
  | (n, v) :: rest => if String.eqb n name then Some v else find_enumerator name rest
  end.

Definition value_of (name : string) : option Z := find_enumerator name values.

End TeXConstants.

(** ** Machine integers *)

(** [int] is a 32 bit two's complement integer, [size_t] an unsigned 64 bit
    one.  Results of font queries and positions are carried as [Z]; the one
    conversion the code performs, from [size_t] to [int], is written out. *)
Definition int : Type := Z.

Definition INT_MAX : Z := 2 ^ 31 - 1.

Definition size_t_wrap (z : Z) : Z := z mod 2 ^ 64.

Definition int_of_size_t (z : Z) : int := (z + 2 ^ 31) mod 2 ^ 32 - 2 ^ 31.

(** ** The font context *)

(** The sentinel [FontContext::NO_FONT] is declared in
    [unimath/uni_font.h]; [box.cpp] only compares against it, so its
    numeric value is left to the instance. *)
Class FontContext : Type := { NO_FONT : int }.

(** ** Objects and the store *)

Definition loc : Type := positive.

(** The dynamic class of a box object, with the members that class adds.
    [Plain] is any class that inherits [Box::lastFontId] unchanged.
    [BoxGroup] and [DecorBox] are the two classes of [box.cpp]. *)
Inductive Variant : Type :=
| Plain
| Glyph (fontId : int)
| BoxGroup (_children : list loc)
| DecorBox (_base : loc).

(** Modelled from the spec: the leaf glyph box, whose override of
    [lastFontId] is not part of [box.cpp].  The specification describes it
    as a leaf whose font id is intrinsic; [Glyph f] answers [f]. *)
Definition Glyph_lastFontId_result (fontId : int) : int := fontId.

Section BoxModel.

(** [num] is the type of the four metric fields (declared in [box/box.h]);
    [box.cpp] only ever copies such values. *)
Context {num : Type}.

Record Box : Type := mkBox {
  _width : num;
  _height : num;
  _depth : num;
  _shift : num;
  variant : Variant
}.

Definition set_width (w : num) (b : Box) : Box :=
  mkBox w (_height b) (_depth b) (_shift b) (variant b).
Definition set_height (x : num) (b : Box) : Box :=
  mkBox (_width b) x (_depth b) (_shift b) (variant b).
Definition set_depth (x : num) (b : Box) : Box :=
  mkBox (_width b) (_height b) x (_shift b) (variant b).
Definition set_shift (x : num) (b : Box) : Box :=
  mkBox (_width b) (_height b) (_depth b) x (variant b).
Definition set_variant (v : Variant) (b : Box) : Box :=
  mkBox (_width b) (_height b) (_depth b) (_shift b) v.

(** The store.  An address outside its domain stands for a null or
    dangling [sptr]. *)
Definition heap : Type := gmap loc Box.

(** *** Outcomes of a method call *)

Inductive exception : Type :=
| out_of_range.

(** A call returns normally, leaves by an exception, has undefined
    behaviour (a null dereference, a violated precondition of the
    standard library), or the evaluator has used up its recursion
    budget.  Exhaustion of memory is not modelled. *)
Inductive outcome (A : Type) : Type :=
| Returns (a : A) (h : heap)
| Throws (e : exception) (h : heap)
| Undefined
| OutOfFuel.
Global Arguments Returns {A} a h.
Global Arguments Throws {A} e h.
Global Arguments Undefined {A}.
Global Arguments OutOfFuel {A}.

Definition M (A : Type) : Type := heap -> outcome A.

Definition ret {A} (a : A) : M A := fun h => Returns a h.

Definition bind {A B} (m : M A) (k : A -> M B) : M B :=
  fun h =>
    match m h with
    | Returns a h' => k a h'
    | Throws e h' => Throws e h'
    | Undefined => Undefined
    | OutOfFuel => OutOfFuel
    end.

Definition undefined {A} : M A := fun _ => Undefined.
Definition out_of_fuel {A} : M A := fun _ => OutOfFuel.

(** [*p] for reading. *)
Definition deref (p : loc) : M Box :=
  fun h => match h !! p with
           | Some b => Returns b h
           | None => Undefined
           end.

(** [p->field = ...], given as an update of the object. *)
Definition modify (p : loc) (upd : Box -> Box) : M unit :=
  fun h => match h !! p with
           | Some b => Returns tt (<[p := upd b]> h)
           | None => Undefined
           end.

End BoxModel.

Global Arguments Box : clear implicits.
Global Arguments heap : clear implicits.
Global Arguments outcome : clear implicits.
Global Arguments M : clear implicits.

Notation "x <- c ;; k" := (bind c (fun x => k))
  (at level 100, c at next level, right associativity).
Notation "c ;;; k" := (bind c (fun _ => k))
  (at level 100, right associativity).

Section Operations.

Context {num : Type}.
Context {FC : FontContext}.

(** *** [Box::copyMetrics] *)

Definition copyMetrics (this box : loc) : M num unit :=
  (w <- (b <- deref box ;; ret (_width b)) ;; modify this (set_width w)) ;;;
  (x <- (b <- deref box ;; ret (_height b)) ;; modify this (set_height x)) ;;;
  (d <- (b <- deref box ;; ret (_depth b)) ;; modify this (set_depth d)) ;;;
  (s <- (b <- deref box ;; ret (_shift b)) ;; modify this (set_shift s)).

(** *** [Box::lastFontId] *)

Definition Box_lastFontId (this : loc) : M num int :=
  ret NO_FONT.

(** *** [std::vector] operations used by [BoxGroup] *)

Definition push_back {A} (v : list A) (x : A) : list A := v ++ [x].

(** [v.insert(v.begin() + pos, x)].  The iterator has to lie in
    [[begin, end]]; otherwise the call has undefined behaviour ([None]). *)
Definition vector_insert {A} (v : list A) (pos : int) (x : A) : option (list A) :=
  if (0 <=? pos) && (pos <=? Z.of_nat (length v))
  then Some (take (Z.to_nat pos) v ++ x :: drop (Z.to_nat pos) v)
  else None.

(** [v[i]], unchecked. *)
Definition vector_at {A} (v : list A) (i : nat) : M num A :=
  match v !! i with
  | Some x => ret x
  | None => undefined
  end.

(** [this->_children] of a receiver whose static type is [BoxGroup]. *)
Definition children_of (this : loc) : M num (list loc) :=
  b <- deref this ;;
  match variant b with
  | BoxGroup ch => ret ch
  | _ => undefined
  end.

Definition base_of (this : loc) : M num loc :=
  b <- deref this ;;
  match variant b with
  | DecorBox p => ret p
  | _ => undefined
  end.

(** *** [BoxGroup::add] *)

Definition BoxGroup_add (this : loc) (box : loc) : M num unit :=
  ch <- children_of this ;;
  modify this (set_variant (BoxGroup (push_back ch box))).

Definition BoxGroup_add_pos (this : loc) (pos : int) (box : loc) : M num unit :=
  ch <- children_of this ;;
  match vector_insert ch pos box with
  | Some ch' => modify this (set_variant (BoxGroup ch'))
  | None => undefined
  end.

(** *** [BoxGroup::lastFontId] *)

(** The body of the [for] loop, with [k = i + 1]: the guard [i >= 0] is
    [k <> 0], and [i--] is the step from [S i] to [i].  [call] is the
    virtual call [->lastFontId()]. *)
Fixpoint BoxGroup_lastFontId_loop (call : loc -> M num int) (this : loc)
    (k : nat) (id : int) : M num int :=
  match k with
  | O => ret id
  | S i =>
      if id =? NO_FONT then
        ch <- children_of this ;;
        c <- vector_at ch i ;;
        id' <- call c ;;
        BoxGroup_lastFontId_loop call this i id'
      else ret id
  end.

(** [int i = _children.size() - 1]: the subtraction is done in [size_t],
    the result converted to [int]. *)
Definition BoxGroup_lastFontId_start (ch : list loc) : int :=
  int_of_size_t (size_t_wrap (Z.of_nat (length ch) - 1)).

Definition BoxGroup_lastFontId (call : loc -> M num int) (this : loc) : M num int :=
  ch <- children_of this ;;
  BoxGroup_lastFontId_loop call this
    (Z.to_nat (BoxGroup_lastFontId_start ch + 1)) NO_FONT.

(** *** [DecorBox::lastFontId] *)

Definition DecorBox_lastFontId (call : loc -> M num int) (this : loc) : M num int :=
  base <- base_of this ;;
  call base.

(** *** The virtual call [p->lastFontId()] *)

(** [fuel] bounds the depth of nested calls; a store may hold cyclic
    [sptr] structures, on which the C++ recursion does not end. *)
Fixpoint lastFontId (fuel : nat) (this : loc) : M num int :=
  match fuel with
  | O => out_of_fuel
  | S fuel' =>
      b <- deref this ;;
      match variant b with
      | Plain => Box_lastFontId this
      | Glyph f => ret (Glyph_lastFontId_result f)
      | BoxGroup _ => BoxGroup_lastFontId (lastFontId fuel') this
      | DecorBox _ => DecorBox_lastFontId (lastFontId fuel') this
      end
  end.

(** *** Well-formed box trees *)

(** [box_tree h d p]: every handle reachable from [p] names an object of
    [h], and the nesting below [p] has depth less than [d]. *)
Fixpoint box_tree (h : heap num) (d : nat) (p : loc) : bool :=
  match d with
  | O => false
  | S d' =>
      match h !! p with
      | None => false
      | Some b =>
          match variant b with
          | Plain | Glyph _ => true
          | BoxGroup ch => forallb (box_tree h d') ch
          | DecorBox base => box_tree h d' base
          end
      end
  end.

(** [decor_chain h n d base]: [d] reaches [base] through [n] nested
    [DecorBox] wrappers. *)
Inductive decor_chain (h : heap num) : nat -> loc -> loc -> Prop :=
| decor_chain_O p : decor_chain h 0 p p
| decor_chain_S n d b inner base :
    h !! d = Some b ->
    variant b = DecorBox inner ->
    decor_chain h n inner base ->
    decor_chain h (S n) d base.

(** *** The scan of [BoxGroup::lastFontId] as the specification words it *)

(** First value different from the sentinel in a list of results, the
    sentinel when there is none. *)
Fixpoint first_real_font (results : list int) : int :=
  match results with
  | [] => NO_FONT
  | x :: rest => if x =? NO_FONT then first_real_font rest else x
  end.

End Operations.

(** ** Concrete stores used to exercise the theorems *)

Module Sample.

(** A font context whose sentinel is [-1]. *)
Definition font_context : FontContext := {| NO_FONT := -1 |}.

Definition box (w x d s : Z) (v : Variant) : Box Z := mkBox w x d s v.

(** Object 1 is a group over 2 and 3; 2 is a glyph in font 5; 3 is a box
    without glyph; 4 decorates 5, which decorates 2; 6 is an empty group;
    7 is a group over the group 1 and the decoration 4. *)
Definition store : heap Z :=
  <[1%positive := box 10 20 30 40 (BoxGroup [2; 3]%positive)]>
  (<[2%positive := box 1 2 3 4 (Glyph 5)]>
  (<[3%positive := box 5 6 7 8 Plain]>
  (<[4%positive := box 9 9 9 9 (DecorBox 5%positive)]>
  (<[5%positive := box 8 8 8 8 (DecorBox 2%positive)]>
  (<[6%positive := box 0 0 0 0 (BoxGroup [])]>
  (<[7%positive := box 7 7 7 7 (BoxGroup [1; 4]%positive)]> ∅)))))).

(** The scenario of two leaves: a glyph in font 5 followed by a leaf
    whose font query answers the sentinel. *)
Definition two_leaves : heap Z :=
  <[1%positive := box 0 0 0 0 (BoxGroup [2; 3]%positive)]>
  (<[2%positive := box 0 0 0 0 (Glyph 5)]>
  (<[3%positive := box 0 0 0 0 (Glyph (-1))]> ∅)).

Definition G1 : Box Z := box 10 20 30 40 (BoxGroup [2; 3]%positive).
Definition B2 : Box Z := box 1 2 3 4 (Glyph 5).

End Sample.

(** ** [indexOf] ([src/common.h]) *)

(** The conversion of a [ptrdiff_t] (the result of [std::distance]) to
    [int], and the conversion of an [int] to [size_t] that the comparison
    [i >= v.size()] performs on its left operand. *)
Definition int_of_ptrdiff_t (z : Z) : int := (z + 2 ^ 31) mod 2 ^ 32 - 2 ^ 31.

Definition size_t_of_int (i : int) : Z := i mod 2 ^ 64.

Section Common.

(** [T] with its [operator==]. *)
Context {T : Type} `{EqDecision T}.

(** [std::distance(v.begin(), std::find(v.begin(), v.end(), x))]: the
    number of elements in front of the first one equal to [x], the size of
    [v] when [std::find] ends at [v.end()]. *)
Fixpoint find_distance (v : list T) (x : T) : nat :=
  match v with
  | [] => O
  | y :: rest => if decide (y = x) then O else S (find_distance rest x)
  end.

Definition indexOf (v : list T) (x : T) : int :=
  let i := int_of_ptrdiff_t (Z.of_nat (find_distance v x)) in
  if size_t_of_int i >=? Z.of_nat (length v) then -1 else i.

End Common.

(** ** Families of [TeXConstants] *)

Module TeXFamilies.

(** The values of the enumerators whose name starts with [prefix], in the
    order of the declaration. *)
Definition family (prefix : string) : list Z :=
  map snd (List.filter (fun nv => String.prefix prefix (fst nv)) TeXConstants.values).

(** The space size constants share no prefix: they are the seven
    enumerators declared after the six alignment constants. *)
Definition space_sizes : list (string * Z) := take 7 (drop 6 TeXConstants.values).

Fixpoint distinct (l : list Z) : bool :=
  match l with
  | [] => true
  | x :: rest => negb (existsb (Z.eqb x) rest) && distinct rest
  end.

End TeXFamilies.

(** ** Comparing outcomes and stores *)

Section Frames.

Context {num : Type}.

(** Two outcomes of the same kind with the same value, whatever the store
    they carry. *)
Definition same_outcome {A} (o o' : outcome num A) : Prop :=
  match o, o' with
  | Returns a _, Returns a' _ => a = a'
  | Throws e _, Throws e' _ => e = e'
  | Undefined, Undefined => True
  | OutOfFuel, OutOfFuel => True
  | _, _ => False
  end.

(** Two stores with the same objects up to the four metric fields. *)
Definition same_structure (h h' : heap num) : Prop :=
  forall p, variant <$> (h !! p) = variant <$> (h' !! p).

(** A run of appending calls [g->add(b1); ...; g->add(bn);]. *)
Fixpoint add_all (g : loc) (bs : list loc) : M num unit :=
  match bs with
  | [] => ret tt
  | b :: rest => BoxGroup_add g b ;;; add_all g rest
  end.

End Frames.

(** ** Further sample stores *)

Module SampleExtra.

(** A group whose first handle names no object, before a glyph in font 5
    and a box without glyph. *)
Definition dangling_front : heap Z :=
  <[1%positive := Sample.box 0 0 0 0 (BoxGroup [9; 2; 3]%positive)]>
  (<[2%positive := Sample.box 0 0 0 0 (Glyph 5)]>
  (<[3%positive := Sample.box 0 0 0 0 Plain]> ∅)).

(** A group whose last handle names no object. *)
Definition dangling_back : heap Z :=
  <[1%positive := Sample.box 0 0 0 0 (BoxGroup [2; 9]%positive)]>
  (<[2%positive := Sample.box 0 0 0 0 (Glyph 5)]> ∅).

End SampleExtra.

(** ** Proof support *)

Ltac unfold_monad :=
  unfold bind, ret, undefined, out_of_fuel, deref, modify, heap in *.

Section MonadFacts.

Context {num : Type}.

Lemma bind_Returns {A B} (m : M num A) (k : A -> M num B) h a h' :
  m h = Returns a h' -> bind m k h = k a h'.
Proof. intros E. unfold bind. now rewrite E. Qed.

Lemma deref_Some (h : heap num) p b :
  h !! p = Some b -> deref p h = Returns b h.
Proof. intros E. unfold deref. now rewrite E. Qed.

Lemma modify_Some (h : heap num) p b upd :
  h !! p = Some b -> modify p upd h = Returns tt (<[p := upd b]> h).
Proof. intros E. unfold modify. now rewrite E. Qed.

Lemma children_of_group (h : heap num) g G ch :
  h !! g = Some G -> variant G = BoxGroup ch ->
  children_of g h = Returns ch h.
Proof.
  intros Hg Hv. unfold children_of.
  rewrite (bind_Returns _ _ _ _ _ (deref_Some _ _ _ Hg)).
  now rewrite Hv.
Qed.

Lemma base_of_decor (h : heap num) d D p :
  h !! d = Some D -> variant D = DecorBox p ->
  base_of d h = Returns p h.
Proof.
  intros Hd Hv. unfold base_of.
  rewrite (bind_Returns _ _ _ _ _ (deref_Some _ _ _ Hd)).
  now rewrite Hv.
Qed.

Lemma Box_eta (b : Box num) :
  mkBox (_width b) (_height b) (_depth b) (_shift b) (variant b) = b.
Proof. now destruct b. Qed.

End MonadFacts.

(** ** [Box::copyMetrics] *)

Section CopyMetrics.

Context {num : Type}.
Implicit Types (h : heap num) (A B : Box num).

(** The store after the four assignments, whether or not the two handles
    name the same object. *)
Lemma copyMetrics_store h (this box : loc) A B :
  h !! this = Some A -> h !! box = Some B ->
  copyMetrics this box h
  = Returns tt
      (<[this := mkBox (_width B) (_height B) (_depth B) (_shift B) (variant A)]> h).
Proof.
  intros Ha Hb. unfold copyMetrics.
  destruct (decide (this = box)) as [->|Hne];
    unfold_monad; simplify_map_eq; cbn; now rewrite !insert_insert_eq.
Qed.

(** C4.  For all boxes A and B, [A.copyMetrics(B)] returns normally; in
    the resulting store A has B's width, height, depth and shift, A keeps
    its own structural content (children or base), the object B is the
    one it was, and no object other than A is written. *)
Theorem copyMetrics_copies h (a b : loc) A B :
  h !! a = Some A -> h !! b = Some B ->
  exists h' A',
    copyMetrics a b h = Returns tt h' /\
    h' !! a = Some A' /\
    _width A' = _width B /\ _height A' = _height B /\
    _depth A' = _depth B /\ _shift A' = _shift B /\
    variant A' = variant A /\
    h' !! b = Some B /\
    (forall p, p <> a -> h' !! p = h !! p).
Proof.
  intros Ha Hb.
  set (A' := mkBox (_width B) (_height B) (_depth B) (_shift B) (variant A)).
  exists (<[a := A']> h), A'.
  split; [apply (copyMetrics_store h a b A B Ha Hb)|].
  unfold heap in *.
  split; [apply lookup_insert_eq|].
  repeat (split; [reflexivity|]).
  split.
  - destruct (decide (a = b)) as [->|Hne].
    + rewrite lookup_insert_eq. f_equal.
      assert (A = B) by congruence. subst. apply Box_eta.
    + now rewrite lookup_insert_ne.
  - intros p Hp. now rewrite lookup_insert_ne.
Qed.

(** C10.  The self-aliased call [A.copyMetrics(A)] returns normally and
    leaves A's width, height, depth and shift as they were; the whole
    store is the one before the call. *)
Theorem copyMetrics_self h (a : loc) A :
  h !! a = Some A ->
  exists h' A',
    copyMetrics a a h = Returns tt h' /\
    h' !! a = Some A' /\
    _width A' = _width A /\ _height A' = _height A /\
    _depth A' = _depth A /\ _shift A' = _shift A /\
    h' = h.
Proof.
  intros Ha. exists h, A.
  split.
  - rewrite (copyMetrics_store h a a A A Ha Ha), Box_eta.
    f_equal. unfold heap in *. now apply insert_id.
  - repeat split; assumption || reflexivity.
Qed.

End CopyMetrics.

(** ** [BoxGroup::add] *)

Section BoxGroupAdd.

Context {num : Type}.
Implicit Types (h : heap num) (G : Box num) (ch : list loc).

Lemma BoxGroup_add_store h g G ch box :
  h !! g = Some G -> variant G = BoxGroup ch ->
  BoxGroup_add g box h
  = Returns tt (<[g := set_variant (BoxGroup (ch ++ [box])) G]> h).
Proof.
  intros Hg Hv. unfold BoxGroup_add.
  rewrite (bind_Returns _ _ _ _ _ (children_of_group h g G ch Hg Hv)).
  now apply modify_Some.
Qed.

Lemma BoxGroup_add_pos_in_range h g G ch p box :
  h !! g = Some G -> variant G = BoxGroup ch ->
  0 <= p <= Z.of_nat (length ch) ->
  BoxGroup_add_pos g p box h
  = Returns tt
      (<[g := set_variant
                (BoxGroup (take (Z.to_nat p) ch ++ box :: drop (Z.to_nat p) ch)) G]> h).
Proof.
  intros Hg Hv [Hlo Hhi]. unfold BoxGroup_add_pos.
  rewrite (bind_Returns _ _ _ _ _ (children_of_group h g G ch Hg Hv)).
  unfold vector_insert.
  apply Z.leb_le in Hlo, Hhi. rewrite Hlo, Hhi. cbn.
  now apply modify_Some.
Qed.

Lemma BoxGroup_add_pos_out_of_range h g G ch p box :
  h !! g = Some G -> variant G = BoxGroup ch ->
  p < 0 \/ Z.of_nat (length ch) < p ->
  BoxGroup_add_pos g p box h = Undefined.
Proof.
  intros Hg Hv Hp. unfold BoxGroup_add_pos.
  rewrite (bind_Returns _ _ _ _ _ (children_of_group h g G ch Hg Hv)).
  unfold vector_insert.
  destruct Hp as [Hp|Hp].
  - apply Z.leb_gt in Hp. now rewrite Hp.
  - apply Z.leb_gt in Hp. rewrite Hp. now rewrite andb_false_r.
Qed.

(** The sequence [take n ch ++ box :: drop n ch], index by index. *)
Lemma inserted_lookup ch (n : nat) (box : loc) :
  (n <= length ch)%nat ->
  let ch' := take n ch ++ box :: drop n ch in
  length ch' = S (length ch) /\
  ch' !! n = Some box /\
  (forall i, (i < n)%nat -> ch' !! i = ch !! i) /\
  (forall i, (n <= i)%nat -> ch' !! S i = ch !! i).
Proof.
  intros Hn ch'. subst ch'.
  assert (length (take n ch) = n) as Hlen by (rewrite length_take; lia).
  split; [|split; [|split]].
  - rewrite length_app, Hlen. cbn. rewrite length_drop. lia.
  - rewrite lookup_app_r by lia. now rewrite Hlen, Nat.sub_diag.
  - intros i Hi. rewrite lookup_app_l by lia. now apply lookup_take_lt.
  - intros i Hi. rewrite lookup_app_r by lia. rewrite Hlen.
    replace (S i - n)%nat with (S (i - n)) by lia.
    change ((box :: drop n ch) !! S (i - n)) with (drop n ch !! (i - n)%nat).
    rewrite lookup_drop. f_equal. lia.
Qed.

(** C1 (amended).  For a group with [n] children and [0 <= p <= n],
    [add(p, box)] returns normally: the group has one child more, [box]
    is the child at index [p], the children before [p] keep their index
    and those from [p] on move one slot later.  For [p < 0] or [p > n] the
    code makes no range check: no indexing error is raised, the call has
    undefined behaviour. *)
Theorem BoxGroup_add_pos_contract h g G ch p box :
  h !! g = Some G -> variant G = BoxGroup ch ->
  (0 <= p <= Z.of_nat (length ch) ->
     exists ch',
       BoxGroup_add_pos g p box h
       = Returns tt (<[g := set_variant (BoxGroup ch') G]> h) /\
       length ch' = S (length ch) /\
       ch' !! Z.to_nat p = Some box /\
       (forall i, (i < Z.to_nat p)%nat -> ch' !! i = ch !! i) /\
       (forall i, (Z.to_nat p <= i)%nat -> ch' !! S i = ch !! i)) /\
  (p < 0 \/ Z.of_nat (length ch) < p ->
     BoxGroup_add_pos g p box h = Undefined).
Proof.
  intros Hg Hv. split.
  - intros Hp.
    exists (take (Z.to_nat p) ch ++ box :: drop (Z.to_nat p) ch).
    split; [apply (BoxGroup_add_pos_in_range h g G ch p box Hg Hv Hp)|].
    apply inserted_lookup. lia.
  - apply (BoxGroup_add_pos_out_of_range h g G ch p box Hg Hv).
Qed.

(** C6.  For a group with [n] children, [add(n, box)] has exactly the
    outcome of the appending [add(box)]: both return normally with the
    child sequence extended by [box] at its end. *)
Theorem BoxGroup_add_pos_at_count h g G ch box :
  h !! g = Some G -> variant G = BoxGroup ch ->
  BoxGroup_add_pos g (Z.of_nat (length ch)) box h = BoxGroup_add g box h /\
  BoxGroup_add g box h
  = Returns tt (<[g := set_variant (BoxGroup (ch ++ [box])) G]> h).
Proof.
  intros Hg Hv.
  rewrite (BoxGroup_add_store h g G ch box Hg Hv).
  split; [|reflexivity].
  rewrite (BoxGroup_add_pos_in_range h g G ch _ box Hg Hv) by lia.
  rewrite Nat2Z.id, firstn_all, drop_all. reflexivity.
Qed.

(** C7.  [add(box)] returns normally; afterwards the group has exactly
    one child more, its last child is [box], and the children it had
    before are the same handles at the same indices. *)
Theorem BoxGroup_add_appends h g G ch box :
  h !! g = Some G -> variant G = BoxGroup ch ->
  exists h' G' ch',
    BoxGroup_add g box h = Returns tt h' /\
    h' !! g = Some G' /\ variant G' = BoxGroup ch' /\
    length ch' = S (length ch) /\
    last ch' = Some box /\
    take (length ch) ch' = ch /\
    (forall i c, ch !! i = Some c -> ch' !! i = Some c).
Proof.
  intros Hg Hv.
  exists (<[g := set_variant (BoxGroup (ch ++ [box])) G]> h),
         (set_variant (BoxGroup (ch ++ [box])) G), (ch ++ [box]).
  split; [apply (BoxGroup_add_store h g G ch box Hg Hv)|].
  unfold heap in *.
  split; [apply lookup_insert_eq|].
  split; [reflexivity|].
  split; [rewrite length_app; cbn; lia|].
  split; [apply last_snoc|].
  split; [now rewrite take_app_length|].
  intros i c Hi. now apply lookup_app_l_Some.
Qed.

End BoxGroupAdd.

(** ** [lastFontId] *)

Section LastFontId.

Context {num : Type}.
Context {FC : FontContext}.
Implicit Types (h : heap num) (G : Box num) (ch : list loc) (vs : list int).

(** *** The loop bounds *)

Lemma start_empty : BoxGroup_lastFontId_start [] = -1.
Proof. reflexivity. Qed.

(** The loop never starts beyond the last child, whatever the count. *)
Lemma start_le ch :
  (Z.to_nat (BoxGroup_lastFontId_start ch + 1) <= length ch)%nat.
Proof.
  unfold BoxGroup_lastFontId_start, int_of_size_t, size_t_wrap.
  destruct ch as [|c ch]; [vm_compute; lia|].
  set (n := Z.of_nat (length (c :: ch))).
  assert (1 <= n) by (subst n; cbn [length]; lia).
  assert (0 <= (n - 1) mod 2 ^ 64 <= n - 1) as Hw.
  { split; [apply Z.mod_pos_bound; lia | apply Z.mod_le; lia]. }
  assert (((n - 1) mod 2 ^ 64 + 2 ^ 31) mod 2 ^ 32
          <= (n - 1) mod 2 ^ 64 + 2 ^ 31) as Hi
    by (apply Z.mod_le; lia).
  lia.
Qed.

(** With a child count that fits [int] the loop starts at the last child. *)
Lemma start_exact ch :
  Z.of_nat (length ch) <= INT_MAX ->
  Z.to_nat (BoxGroup_lastFontId_start ch + 1) = length ch.
Proof.
  unfold INT_MAX. intros Hn.
  destruct ch as [|c ch]; [reflexivity|].
  unfold BoxGroup_lastFontId_start, int_of_size_t, size_t_wrap.
  set (n := Z.of_nat (length (c :: ch))) in *.
  assert (1 <= n) by (subst n; cbn [length]; lia).
  rewrite (Z.mod_small (n - 1)) by lia.
  rewrite Z.mod_small by lia.
  lia.
Qed.

(** *** Unfolding the virtual call *)

Lemma lastFontId_group fuel h g G ch :
  h !! g = Some G -> variant G = BoxGroup ch ->
  lastFontId (S fuel) g h = BoxGroup_lastFontId (lastFontId fuel) g h.
Proof.
  intros Hg Hv. cbn [lastFontId].
  rewrite (bind_Returns _ _ _ _ _ (deref_Some h g G Hg)).
  now rewrite Hv.
Qed.

Lemma lastFontId_decor fuel h d D p :
  h !! d = Some D -> variant D = DecorBox p ->
  lastFontId (S fuel) d h = lastFontId fuel p h.
Proof.
  intros Hd Hv. cbn [lastFontId].
  rewrite (bind_Returns _ _ _ _ _ (deref_Some h d D Hd)).
  rewrite Hv. unfold DecorBox_lastFontId.
  now rewrite (bind_Returns _ _ _ _ _ (base_of_decor h d D p Hd Hv)).
Qed.

(** *** The scan *)

Lemma first_real_font_sentinels pre rest :
  Forall (fun v => v = NO_FONT) pre ->
  first_real_font (pre ++ rest) = first_real_font rest.
Proof.
  induction 1 as [|v pre Hv _ IH]; [reflexivity|].
  cbn. subst v. now rewrite Z.eqb_refl.
Qed.

Lemma first_real_font_found pre x post :
  Forall (fun v => v = NO_FONT) pre -> x <> NO_FONT ->
  first_real_font (pre ++ x :: post) = x.
Proof.
  intros Hpre Hx. rewrite first_real_font_sentinels by assumption.
  cbn. apply Z.eqb_neq in Hx. now rewrite Hx.
Qed.

Lemma first_real_font_none vs :
  Forall (fun v => v = NO_FONT) vs -> first_real_font vs = NO_FONT.
Proof.
  intros Hall. rewrite <- (app_nil_r vs).
  now rewrite first_real_font_sentinels.
Qed.

(** The loop entered with [k] children left and current value [id], when
    every child's query returns without touching the store. *)
Lemma loop_scan (call : loc -> M num int) h g G ch vs :
  h !! g = Some G -> variant G = BoxGroup ch ->
  Forall2 (fun c v => call c h = Returns v h) ch vs ->
  forall k id, (k <= length ch)%nat ->
    BoxGroup_lastFontId_loop call g k id h
    = Returns (if id =? NO_FONT then first_real_font (rev (take k vs)) else id) h.
Proof.
  intros Hg Hv HF. induction k as [|k IH]; intros id Hk;
    cbn [BoxGroup_lastFontId_loop].
  - unfold ret. destruct (Z.eqb_spec id NO_FONT) as [->|]; reflexivity.
  - destruct (Z.eqb_spec id NO_FONT) as [->|Hne]; [|reflexivity].
    rewrite (bind_Returns _ _ _ _ _ (children_of_group h g G ch Hg Hv)).
    destruct (lookup_lt_is_Some_2 ch k) as [c Hc]; [lia|].
    destruct (Forall2_lookup_l _ _ _ _ _ HF Hc) as (v & Hvk & Hcall).
    unfold vector_at. rewrite Hc.
    rewrite (bind_Returns _ _ h c h) by reflexivity.
    rewrite (bind_Returns _ _ _ _ _ Hcall).
    rewrite IH by lia.
    rewrite (take_S_r _ _ _ Hvk), rev_unit. reflexivity.
Qed.

Lemma BoxGroup_lastFontId_result fuel h g G ch vs :
  h !! g = Some G -> variant G = BoxGroup ch ->
  Z.of_nat (length ch) <= INT_MAX ->
  Forall2 (fun c v => lastFontId fuel c h = Returns v h) ch vs ->
  lastFontId (S fuel) g h = Returns (first_real_font (rev vs)) h.
Proof.
  intros Hg Hv Hn HF.
  rewrite (lastFontId_group fuel h g G ch Hg Hv).
  unfold BoxGroup_lastFontId.
  rewrite (bind_Returns _ _ _ _ _ (children_of_group h g G ch Hg Hv)).
  rewrite (start_exact ch Hn).
  rewrite (loop_scan _ h g G ch vs Hg Hv HF) by lia.
  rewrite Z.eqb_refl.
  rewrite (Forall2_length _ _ _ HF), firstn_all. reflexivity.
Qed.

(** *** Purity and termination *)

Lemma loop_pure (call : loc -> M num int) this :
  (forall c h v h', call c h = Returns v h' -> h' = h) ->
  forall k id h v h',
    BoxGroup_lastFontId_loop call this k id h = Returns v h' -> h' = h.
Proof.
  intros Hcall. induction k as [|k IH]; intros id h v h';
    cbn [BoxGroup_lastFontId_loop].
  - unfold ret. congruence.
  - destruct (id =? NO_FONT); [|unfold ret; congruence].
    unfold children_of, vector_at, bind, deref, ret, undefined.
    destruct (h !! this) as [b|]; [|discriminate].
    destruct (variant b) as [| |ch|]; try discriminate.
    destruct (ch !! k) as [c|]; [|discriminate].
    destruct (call c h) as [v1 h1| | |] eqn:Ec; try discriminate.
    apply Hcall in Ec. subst h1. apply IH.
Qed.

Lemma lastFontId_pure fuel :
  forall this h v h', lastFontId fuel this h = Returns v h' -> h' = h.
Proof.
  induction fuel as [|fuel IH]; intros this h v h'; cbn [lastFontId].
  - discriminate.
  - unfold bind at 1. unfold deref.
    destruct (h !! this) as [b|]; [|discriminate].
    destruct (variant b) as [|f|ch|p].
    + unfold Box_lastFontId, ret. congruence.
    + unfold ret. congruence.
    + unfold BoxGroup_lastFontId, children_of, bind, deref, ret, undefined.
      destruct (h !! this) as [b'|]; [|discriminate].
      destruct (variant b') as [| |ch'|]; try discriminate.
      apply (loop_pure _ this IH).
    + unfold DecorBox_lastFontId, base_of, bind, deref, ret, undefined.
      destruct (h !! this) as [b'|]; [|discriminate].
      destruct (variant b') as [| | |p']; try discriminate.
      apply IH.
Qed.

Lemma loop_returns (call : loc -> M num int) h g G ch :
  h !! g = Some G -> variant G = BoxGroup ch ->
  (forall c, c ∈ ch -> exists v, call c h = Returns v h) ->
  forall k id, (k <= length ch)%nat ->
    exists v, BoxGroup_lastFontId_loop call g k id h = Returns v h.
Proof.
  intros Hg Hv Hcall. induction k as [|k IH]; intros id Hk;
    cbn [BoxGroup_lastFontId_loop].
  - now exists id.
  - destruct (id =? NO_FONT); [|now exists id].
    rewrite (bind_Returns _ _ _ _ _ (children_of_group h g G ch Hg Hv)).
    destruct (lookup_lt_is_Some_2 ch k) as [c Hc]; [lia|].
    destruct (Hcall c) as [v Ev]; [now apply (list_elem_of_lookup_2 ch k)|].
    unfold vector_at. rewrite Hc.
    rewrite (bind_Returns _ _ h c h) by reflexivity.
    rewrite (bind_Returns _ _ _ _ _ Ev).
    apply IH. lia.
Qed.

Lemma lastFontId_terminates h :
  forall d p, box_tree h d p = true -> exists v, lastFontId d p h = Returns v h.
Proof.
  induction d as [|d IH]; intros p; cbn [box_tree]; [discriminate|].
  destruct (h !! p) as [b|] eqn:Hp; [|discriminate].
  destruct (variant b) as [|f|ch|base] eqn:Hv; intros Ht.
  - exists NO_FONT. cbn [lastFontId].
    rewrite (bind_Returns _ _ _ _ _ (deref_Some h p b Hp)). now rewrite Hv.
  - exists f. cbn [lastFontId].
    rewrite (bind_Returns _ _ _ _ _ (deref_Some h p b Hp)). now rewrite Hv.
  - rewrite (lastFontId_group d h p b ch Hp Hv).
    unfold BoxGroup_lastFontId.
    rewrite (bind_Returns _ _ _ _ _ (children_of_group h p b ch Hp Hv)).
    apply (loop_returns _ h p b ch Hp Hv); [|apply start_le].
    intros c Hc. apply IH.
    rewrite forallb_forall in Ht. apply Ht. now apply list_elem_of_In.
  - rewrite (lastFontId_decor d h p b base Hp Hv). now apply IH.
Qed.

End LastFontId.

(** ** The claims about [lastFontId] *)

Section LastFontIdClaims.

Context {num : Type}.
Context {FC : FontContext}.
Implicit Types (h : heap num) (G : Box num) (ch : list loc) (vs : list int).

(** C2 (amended).  For a group whose two children, in order, answer 5 and
    [NO_FONT], the group's [lastFontId()] returns 5: the trailing child
    without a font is skipped and the earlier real font id is found. *)
Theorem BoxGroup_lastFontId_two_children fuel h g G c1 c2 :
  h !! g = Some G -> variant G = BoxGroup [c1; c2] ->
  lastFontId fuel c1 h = Returns 5 h ->
  lastFontId fuel c2 h = Returns NO_FONT h ->
  lastFontId (S fuel) g h = Returns 5 h.
Proof.
  intros Hg Hv H1 H2.
  rewrite (BoxGroup_lastFontId_result fuel h g G [c1; c2] [5; NO_FONT] Hg Hv).
  - cbn [rev app first_real_font]. rewrite Z.eqb_refl.
    destruct (Z.eqb_spec 5 NO_FONT) as [E|_]; [now rewrite <- E | reflexivity].
  - unfold INT_MAX. cbn. lia.
  - repeat constructor; assumption.
Qed.

(** C3.  For a group whose child count fits [int] and whose children's
    queries return the values [vs] (in child order), [lastFontId()]
    returns the first value different from the sentinel met when [vs] is
    read from its last element to its first; it returns the sentinel
    when every child answers the sentinel, in particular when the group
    has no children. *)
Theorem BoxGroup_lastFontId_scan fuel h g G ch vs :
  h !! g = Some G -> variant G = BoxGroup ch ->
  Z.of_nat (length ch) <= INT_MAX ->
  Forall2 (fun c v => lastFontId fuel c h = Returns v h) ch vs ->
  lastFontId (S fuel) g h = Returns (first_real_font (rev vs)) h /\
  (forall trailing x earlier,
      rev vs = trailing ++ x :: earlier ->
      Forall (fun v => v = NO_FONT) trailing -> x <> NO_FONT ->
      lastFontId (S fuel) g h = Returns x h) /\
  (Forall (fun v => v = NO_FONT) vs ->
      lastFontId (S fuel) g h = Returns NO_FONT h) /\
  (ch = [] -> lastFontId (S fuel) g h = Returns NO_FONT h).
Proof.
  intros Hg Hv Hn HF.
  pose proof (BoxGroup_lastFontId_result fuel h g G ch vs Hg Hv Hn HF) as E.
  split; [exact E|]. split; [|split].
  - intros trailing x earlier Hrev Htr Hx.
    rewrite E, Hrev. now rewrite first_real_font_found.
  - intros Hall. rewrite E. rewrite first_real_font_none; [reflexivity|].
    apply Forall_forall. intros v Hin. apply (proj1 (Forall_forall _ _) Hall).
    apply list_elem_of_In. apply list_elem_of_In in Hin.
    now apply in_rev.
  - intros ->. rewrite E. apply Forall2_nil_inv_l in HF. now subst vs.
Qed.

(** C5.  A [DecorBox] answers [lastFontId()] with exactly the outcome of
    its base's [lastFontId()], whatever the class of the base; through
    [n] nested wrappers the outcome is that of the innermost base. *)
Theorem DecorBox_lastFontId_delegates h n d base fuel :
  decor_chain h n d base ->
  lastFontId (n + fuel) d h = lastFontId fuel base h.
Proof.
  induction 1 as [p|n d D inner base Hd Hv _ IH]; [reflexivity|].
  cbn [Nat.add].
  now rewrite (lastFontId_decor (n + fuel) h d D inner Hd Hv).
Qed.

(** C8.  On a box tree, [lastFontId()] returns and the store after the
    call is the store before it; two calls in a row return the same
    value; and whenever a call returns, on any store, no object has been
    written. *)
Theorem lastFontId_pure_query h d p :
  box_tree h d p = true ->
  exists v,
    lastFontId d p h = Returns v h /\
    (v1 <- lastFontId d p ;; v2 <- lastFontId d p ;; ret (v1, v2)) h
    = Returns (v, v) h /\
    (forall fuel v' h', lastFontId fuel p h = Returns v' h' -> h' = h).
Proof.
  intros Ht. destruct (lastFontId_terminates h d p Ht) as [v Ev].
  exists v. split; [exact Ev|]. split.
  - rewrite (bind_Returns _ _ _ _ _ Ev).
    now rewrite (bind_Returns _ _ _ _ _ Ev).
  - intros fuel v' h'. apply lastFontId_pure.
Qed.

End LastFontIdClaims.

(** ** The constant vocabulary *)

(** C9.  The math style constants are 0, 2, 4 and 6; the atom type
    constants run from [TYPE_ORDINARY = 0] to [TYPE_INNER = 7] and resume
    at [TYPE_ACCENT = 10] up to [TYPE_MULTIROW = 14]. *)
Theorem TeXConstants_documented_values :
  TeXConstants.value_of "STYLE_DISPLAY" = Some 0 /\
  TeXConstants.value_of "STYLE_TEXT" = Some 2 /\
  TeXConstants.value_of "STYLE_SCRIPT" = Some 4 /\
  TeXConstants.value_of "STYLE_SCRIPT_SCRIPT" = Some 6 /\
  TeXConstants.value_of "TYPE_ORDINARY" = Some 0 /\
  TeXConstants.value_of "TYPE_BIG_OPERATOR" = Some 1 /\
  TeXConstants.value_of "TYPE_BINARY_OPERATOR" = Some 2 /\
  TeXConstants.value_of "TYPE_RELATION" = Some 3 /\
  TeXConstants.value_of "TYPE_OPENING" = Some 4 /\
  TeXConstants.value_of "TYPE_CLOSING" = Some 5 /\
  TeXConstants.value_of "TYPE_PUNCTUATION" = Some 6 /\
  TeXConstants.value_of "TYPE_INNER" = Some 7 /\
  TeXConstants.value_of "TYPE_ACCENT" = Some 10 /\
  TeXConstants.value_of "TYPE_INTERTEXT" = Some 11 /\
  TeXConstants.value_of "TYPE_MULTICOLUMN" = Some 12 /\
  TeXConstants.value_of "TYPE_HLINE" = Some 13 /\
  TeXConstants.value_of "TYPE_MULTIROW" = Some 14.
Proof. repeat split; vm_compute; reflexivity. Qed.

(** ** Worked instances on the sample stores *)

Module Instances.

Import Sample.
#[local] Existing Instance Sample.font_context.
Local Open Scope positive_scope.

Lemma copyMetrics_copies_witness :
  Sample.store !! 1 = Some G1 /\ Sample.store !! 2 = Some B2 /\
  exists h' A',
    copyMetrics 1 2 Sample.store = Returns tt h' /\
    h' !! 1 = Some A' /\
    _width A' = _width B2 /\ _height A' = _height B2 /\
    _depth A' = _depth B2 /\ _shift A' = _shift B2 /\
    variant A' = variant G1 /\
    h' !! 2 = Some B2 /\
    (forall p, p <> 1 -> h' !! p = Sample.store !! p).
Proof.
  split; [reflexivity|]. split; [reflexivity|].
  apply (copyMetrics_copies Sample.store 1 2 G1 B2); reflexivity.
Defined.

Lemma copyMetrics_self_witness :
  Sample.store !! 2 = Some B2 /\
  exists h' A',
    copyMetrics 2 2 Sample.store = Returns tt h' /\
    h' !! 2 = Some A' /\
    _width A' = _width B2 /\ _height A' = _height B2 /\
    _depth A' = _depth B2 /\ _shift A' = _shift B2 /\
    h' = Sample.store.
Proof.
  split; [reflexivity|].
  apply (copyMetrics_self Sample.store 2 B2); reflexivity.
Defined.

Lemma BoxGroup_add_pos_contract_witness :
  Sample.store !! 1 = Some G1 /\ variant G1 = BoxGroup [2; 3] /\
  (0 <= 1 <= Z.of_nat (length [2; 3]))%Z /\
  (Z.of_nat (length [2; 3]) < 5)%Z /\
  (exists ch',
      BoxGroup_add_pos 1 1%Z 6 Sample.store
      = Returns tt (<[1 := set_variant (BoxGroup ch') G1]> Sample.store) /\
      length ch' = 3%nat /\
      ch' !! Z.to_nat 1 = Some 6 /\
      (forall i, (i < Z.to_nat 1)%nat -> ch' !! i = [2; 3] !! i) /\
      (forall i, (Z.to_nat 1 <= i)%nat -> ch' !! S i = [2; 3] !! i)) /\
  BoxGroup_add_pos 1 5%Z 6 Sample.store = Undefined.
Proof.
  assert (Sample.store !! 1 = Some G1) as Hg by reflexivity.
  assert (variant G1 = BoxGroup [2; 3]) as Hv by reflexivity.
  assert (0 <= 1 <= Z.of_nat (length [2; 3]))%Z as Hin by (cbn; lia).
  assert (Z.of_nat (length [2; 3]) < 5)%Z as Hout by (cbn; lia).
  repeat (split; [assumption|]).
  split.
  - exact (proj1 (BoxGroup_add_pos_contract Sample.store 1 G1 [2; 3] 1%Z 6 Hg Hv) Hin).
  - exact (proj2 (BoxGroup_add_pos_contract Sample.store 1 G1 [2; 3] 5%Z 6 Hg Hv)
             (or_intror Hout)).
Defined.

Lemma BoxGroup_add_pos_at_count_witness :
  Sample.store !! 1 = Some G1 /\ variant G1 = BoxGroup [2; 3] /\
  BoxGroup_add_pos 1 (Z.of_nat (length [2; 3])) 6 Sample.store
  = BoxGroup_add 1 6 Sample.store /\
  BoxGroup_add 1 6 Sample.store
  = Returns tt (<[1 := set_variant (BoxGroup ([2; 3] ++ [6])) G1]> Sample.store).
Proof.
  split; [reflexivity|]. split; [reflexivity|].
  apply (BoxGroup_add_pos_at_count Sample.store 1 G1 [2; 3] 6); reflexivity.
Defined.

Lemma BoxGroup_add_appends_witness :
  Sample.store !! 1 = Some G1 /\ variant G1 = BoxGroup [2; 3] /\
  exists h' G' ch',
    BoxGroup_add 1 6 Sample.store = Returns tt h' /\
    h' !! 1 = Some G' /\ variant G' = BoxGroup ch' /\
    length ch' = S (length [2; 3]) /\
    last ch' = Some 6 /\
    take (length [2; 3]) ch' = [2; 3] /\
    (forall i c, [2; 3] !! i = Some c -> ch' !! i = Some c).
Proof.
  split; [reflexivity|]. split; [reflexivity|].
  apply (BoxGroup_add_appends Sample.store 1 G1 [2; 3] 6); reflexivity.
Defined.

Lemma BoxGroup_lastFontId_two_children_witness :
  Sample.two_leaves !! 1 = Some (Sample.box 0 0 0 0 (BoxGroup [2; 3])) /\
  lastFontId 1 2 Sample.two_leaves = Returns 5%Z Sample.two_leaves /\
  lastFontId 1 3 Sample.two_leaves = Returns NO_FONT Sample.two_leaves /\
  lastFontId 2 1 Sample.two_leaves = Returns 5%Z Sample.two_leaves.
Proof.
  assert (Sample.two_leaves !! 1 = Some (Sample.box 0 0 0 0 (BoxGroup [2; 3])))
    as Hg by reflexivity.
  assert (lastFontId 1 2 Sample.two_leaves = Returns 5%Z Sample.two_leaves)
    as H2 by reflexivity.
  assert (lastFontId 1 3 Sample.two_leaves = Returns NO_FONT Sample.two_leaves)
    as H3 by reflexivity.
  repeat (split; [assumption|]).
  exact (BoxGroup_lastFontId_two_children 1 Sample.two_leaves 1 _ 2 3
           Hg eq_refl H2 H3).
Defined.

Lemma BoxGroup_lastFontId_scan_witness :
  Sample.store !! 7 = Some (Sample.box 7 7 7 7 (BoxGroup [1; 4])) /\
  (Z.of_nat (length [1; 4]) <= INT_MAX)%Z /\
  Forall2 (fun c v => lastFontId 3 c Sample.store = Returns v Sample.store)
    [1; 4] [5; 5]%Z /\
  lastFontId 4 7 Sample.store = Returns 5%Z Sample.store.
Proof.
  assert (Sample.store !! 7 = Some (Sample.box 7 7 7 7 (BoxGroup [1; 4])))
    as Hg by reflexivity.
  assert (Z.of_nat (length [1; 4]) <= INT_MAX)%Z as Hn
    by (unfold INT_MAX; cbn; lia).
  assert (Forall2 (fun c v => lastFontId 3 c Sample.store = Returns v Sample.store)
            [1; 4] [5; 5]%Z) as HF
    by (repeat constructor).
  repeat (split; [assumption|]).
  exact (proj1 (BoxGroup_lastFontId_scan 3 Sample.store 7 _ [1; 4] [5; 5]%Z
                  Hg eq_refl Hn HF)).
Defined.

Lemma DecorBox_lastFontId_delegates_witness :
  decor_chain Sample.store 2 4 2 /\
  lastFontId (2 + 1) 4 Sample.store = lastFontId 1 2 Sample.store /\
  lastFontId 1 2 Sample.store = Returns 5%Z Sample.store.
Proof.
  assert (decor_chain Sample.store 2 4 2) as Hc.
  { apply (decor_chain_S _ 1 4 (Sample.box 9 9 9 9 (DecorBox 5)) 5 2);
      [reflexivity | reflexivity |].
    apply (decor_chain_S _ 0 5 (Sample.box 8 8 8 8 (DecorBox 2)) 2 2);
      [reflexivity | reflexivity |].
    apply decor_chain_O. }
  split; [exact Hc|]. split; [|reflexivity].
  exact (DecorBox_lastFontId_delegates Sample.store 2 4 2 1 Hc).
Defined.

Lemma lastFontId_pure_query_witness :
  box_tree Sample.store 4 7 = true /\
  exists v,
    lastFontId 4 7 Sample.store = Returns v Sample.store /\
    (v1 <- lastFontId 4 7 ;; v2 <- lastFontId 4 7 ;; ret (v1, v2)) Sample.store
    = Returns (v, v) Sample.store /\
    (forall fuel v' h',
        lastFontId fuel 7 Sample.store = Returns v' h' -> h' = Sample.store).
Proof.
  split; [reflexivity|].
  apply (lastFontId_pure_query Sample.store 4 7). reflexivity.
Defined.

(** *** Where the code departs from the documented behaviour *)

(** C1, as stated, fails: with two children, [add(-1, box)] and
    [add(3, box)] do not end in an indexing error. *)
Lemma BoxGroup_add_pos_no_indexing_error :
  Sample.store !! 1 = Some G1 /\ variant G1 = BoxGroup [2; 3] /\
  (-1 < 0)%Z /\ (3 > Z.of_nat (length [2; 3]))%Z /\
  BoxGroup_add_pos 1 (-1)%Z 6 Sample.store <> Throws out_of_range Sample.store /\
  BoxGroup_add_pos 1 3%Z 6 Sample.store <> Throws out_of_range Sample.store.
Proof.
  split; [reflexivity|]. split; [reflexivity|].
  split; [reflexivity|]. split; [reflexivity|].
  split; vm_compute; discriminate.
Qed.

(** C2, as stated, fails: for the children [[Glyph 5; Glyph NO_FONT]] the
    group answers 5, and no recursion budget makes it answer [NO_FONT]. *)
Lemma two_leaves_last_font_is_real :
  Sample.two_leaves !! 1 = Some (Sample.box 0 0 0 0 (BoxGroup [2; 3])) /\
  lastFontId 1 2 Sample.two_leaves = Returns 5%Z Sample.two_leaves /\
  lastFontId 1 3 Sample.two_leaves = Returns NO_FONT Sample.two_leaves /\
  5%Z <> NO_FONT /\
  lastFontId 2 1 Sample.two_leaves = Returns 5%Z Sample.two_leaves /\
  ~ (exists fuel,
        lastFontId fuel 1 Sample.two_leaves = Returns NO_FONT Sample.two_leaves).
Proof.
  split; [reflexivity|]. split; [reflexivity|]. split; [reflexivity|].
  split; [discriminate|]. split; [reflexivity|].
  intros [fuel E].
  destruct fuel as [|[|fuel]]; [discriminate E | discriminate E |].
  assert (Sample.two_leaves !! 1 = Some (Sample.box 0 0 0 0 (BoxGroup [2; 3])))
    as Hg by reflexivity.
  rewrite (BoxGroup_lastFontId_result (S fuel) Sample.two_leaves 1 _
             [2; 3] [5; -1]%Z Hg eq_refl) in E.
  - discriminate E.
  - unfold INT_MAX. cbn. lia.
  - repeat constructor.
Qed.

End Instances.


(** ** [indexOf] *)

Section IndexOf.

Context {T : Type} `{EqDecision T}.
Implicit Types (v : list T) (x : T).

Lemma find_distance_le v x : (find_distance v x <= length v)%nat.
Proof.
  induction v as [|y v IH]; cbn; [lia|].
  destruct (decide (y = x)); lia.
Qed.




Lemma find_distance_app l x r :
  x ∉ l -> find_distance (l ++ x :: r) x = length l.
Proof.
  induction l as [|y l IH]; cbn; intros Hx.
  - now rewrite decide_True.
  - apply not_elem_of_cons in Hx as [Hne Hx].
    rewrite decide_False by congruence. f_equal. now apply IH.
Qed.

(** Below [INT_MAX] elements no conversion changes a value. *)
Lemma indexOf_small v x :
  Z.of_nat (length v) <= INT_MAX ->
  indexOf v x
  = if decide (find_distance v x = length v) then -1
    else Z.of_nat (find_distance v x).
Proof.
  unfold INT_MAX. intros Hn. unfold indexOf, int_of_ptrdiff_t, size_t_of_int.
  pose proof (find_distance_le v x) as Hle.
  rewrite (Z.mod_small (_ + 2 ^ 31)) by lia.
  replace (Z.of_nat (find_distance v x) + 2 ^ 31 - 2 ^ 31)
    with (Z.of_nat (find_distance v x)) by lia.
  rewrite Z.mod_small by lia.
  destruct (decide (find_distance v x = length v)) as [E|Hne].
  - rewrite E. destruct (Z.geb_spec (Z.of_nat (length v)) (Z.of_nat (length v)));
      [reflexivity | lia].
  - destruct (Z.geb_spec (Z.of_nat (find_distance v x)) (Z.of_nat (length v)));
      [lia | reflexivity].
Qed.




(** X4.  Whatever the size of the vector below [2 ^ 63], the answer of
    [indexOf] is -1 or an index inside the vector. *)
Theorem indexOf_range v x :
  Z.of_nat (length v) <= 2 ^ 63 ->
  indexOf v x = -1 \/ 0 <= indexOf v x < Z.of_nat (length v).
Proof.
  intros Hn. unfold indexOf, size_t_of_int.
  set (i := int_of_ptrdiff_t (Z.of_nat (find_distance v x))).
  assert (- 2 ^ 31 <= i < 2 ^ 31) as Hi.
  { subst i. unfold int_of_ptrdiff_t.
    pose proof (Z.mod_pos_bound (Z.of_nat (find_distance v x) + 2 ^ 31) (2 ^ 32)).
    lia. }
  destruct (Z.geb_spec (i mod 2 ^ 64) (Z.of_nat (length v))) as [Hge|Hlt];
    [now left | right].
  destruct (Z_lt_le_dec i 0) as [Hneg|Hpos].
  - exfalso.
    assert (i mod 2 ^ 64 = i + 2 ^ 64) as E.
    { symmetry. apply (Z.mod_unique _ _ (-1)); lia. }
    lia.
  - rewrite Z.mod_small in Hlt by lia. lia.
Qed.

(** X5.  Inserting an element the vector does not hold at position [p]
    and asking for its index gives [p] back. *)
Theorem indexOf_vector_insert v x (p : int) :
  Z.of_nat (length v) < INT_MAX -> x ∉ v ->
  0 <= p <= Z.of_nat (length v) ->
  exists v', vector_insert v p x = Some v' /\ indexOf v' x = p.
Proof.
  intros Hn Hx [Hlo Hhi]. unfold vector_insert.
  pose proof Hlo as Hlo'. pose proof Hhi as Hhi'.
  apply Z.leb_le in Hlo', Hhi'. rewrite Hlo', Hhi'. cbn [andb].
  eexists. split; [reflexivity|].
  set (n := Z.to_nat p).
  assert (length (take n v) = n) as Hlen by (rewrite length_take; lia).
  assert (find_distance (take n v ++ x :: drop n v) x = n) as Hd.
  { rewrite find_distance_app; [exact Hlen|].
    intros Hin. apply Hx. now apply (subseteq_take n v). }
  rewrite indexOf_small.
  - rewrite Hd. rewrite decide_False.
    + subst n. lia.
    + rewrite length_app, Hlen. cbn. lia.
  - rewrite length_app, Hlen. cbn. rewrite length_drop. unfold INT_MAX in *. lia.
Qed.

End IndexOf.

(** ** More on [Box::copyMetrics] *)

Section CopyMetricsMore.

Context {num : Type}.
Implicit Types (h : heap num) (A B C : Box num).

(** X6.  Copying the same metrics twice in a row leaves the store the
    first copy produced, also when the two handles name one object. *)
Theorem copyMetrics_idempotent h (a b : loc) A B :
  h !! a = Some A -> h !! b = Some B ->
  (copyMetrics a b ;;; copyMetrics a b) h = copyMetrics a b h.
Proof.
  intros Ha Hb.
  rewrite (bind_Returns _ _ _ _ _ (copyMetrics_store h a b A B Ha Hb)).
  rewrite (copyMetrics_store h a b A B Ha Hb).
  set (A' := mkBox (_width B) (_height B) (_depth B) (_shift B) (variant A)).
  assert (<[a := A']> h !! a = Some A') as Ha'
    by (unfold heap in *; apply lookup_insert_eq).
  destruct (decide (a = b)) as [->|Hne].
  - rewrite (copyMetrics_store _ b b A' A' Ha' Ha').
    unfold heap in *. now rewrite insert_insert_eq.
  - assert (<[a := A']> h !! b = Some B) as Hb'
      by (unfold heap in *; now rewrite lookup_insert_ne).
    rewrite (copyMetrics_store _ a b A' B Ha' Hb').
    unfold heap in *. now rewrite insert_insert_eq.
Qed.

(** X7.  Metrics travel through an intermediate box: after
    [a.copyMetrics(b)] followed by [c.copyMetrics(a)], the box c has the
    four metrics b had at the start and the structural content c had,
    whichever of the three handles coincide. *)
Theorem copyMetrics_transfers h (a b c : loc) A B C :
  h !! a = Some A -> h !! b = Some B -> h !! c = Some C ->
  exists h' C',
    (copyMetrics a b ;;; copyMetrics c a) h = Returns tt h' /\
    h' !! c = Some C' /\
    _width C' = _width B /\ _height C' = _height B /\
    _depth C' = _depth B /\ _shift C' = _shift B /\
    variant C' = variant C.
Proof.
  intros Ha Hb Hc.
  rewrite (bind_Returns _ _ _ _ _ (copyMetrics_store h a b A B Ha Hb)).
  set (A' := mkBox (_width B) (_height B) (_depth B) (_shift B) (variant A)).
  assert (<[a := A']> h !! a = Some A') as Ha'
    by (unfold heap in *; apply lookup_insert_eq).
  assert (exists C1, <[a := A']> h !! c = Some C1 /\ variant C1 = variant C)
    as (C1 & Hc' & Hv).
  { destruct (decide (a = c)) as [->|Hne].
    - exists A'. split; [exact Ha'|]. cbn. congruence.
    - exists C. split; [|reflexivity].
      unfold heap in *. now rewrite lookup_insert_ne. }
  rewrite (copyMetrics_store _ c a C1 A' Hc' Ha').
  eexists _, _. split; [reflexivity|].
  split; [unfold heap in *; apply lookup_insert_eq|].
  cbn. repeat split; assumption || reflexivity.
Qed.

(** X8.  [copyMetrics] tests neither handle: when the argument or the
    receiver names no object the call has undefined behaviour. *)
Theorem copyMetrics_dangling h (this box : loc) :
  h !! box = None \/ h !! this = None ->
  copyMetrics this box h = Undefined.
Proof.
  intros Hd. unfold copyMetrics. unfold_monad.
  destruct (h !! box) as [B|] eqn:Hb; [|reflexivity].
  destruct Hd as [Hd|Hd]; [discriminate|].
  now rewrite Hd.
Qed.

End CopyMetricsMore.

(** ** Runs of [BoxGroup::add] *)

Section AddAll.

Context {num : Type}.
Implicit Types (h : heap num) (G : Box num) (ch bs : list loc).

(** X9.  A run of appending calls on a group returns normally and
    extends the child sequence by the appended handles, in the order of
    the calls; the group's four metrics are not recomputed and no other
    object is written. *)
Theorem add_all_appends bs : forall h g G ch,
  h !! g = Some G -> variant G = BoxGroup ch ->
  add_all g bs h
  = Returns tt
      (<[g := mkBox (_width G) (_height G) (_depth G) (_shift G)
                (BoxGroup (ch ++ bs))]> h).
Proof.
  induction bs as [|b bs IH]; intros h g G ch Hg Hv; cbn [add_all].
  - unfold ret. f_equal. rewrite app_nil_r, <- Hv, Box_eta.
    unfold heap in *. symmetry. now apply insert_id.
  - rewrite (bind_Returns _ _ _ _ _ (BoxGroup_add_store h g G ch b Hg Hv)).
    set (G1 := set_variant (BoxGroup (ch ++ [b])) G).
    assert (<[g := G1]> h !! g = Some G1) as Hg1
      by (unfold heap in *; apply lookup_insert_eq).
    rewrite (IH _ g G1 (ch ++ [b]) Hg1 eq_refl).
    cbn. unfold heap in *. rewrite insert_insert_eq.
    now rewrite <- app_assoc.
Qed.

End AddAll.

(** ** More on [lastFontId] *)

Section LastFontIdMore.

Context {num : Type}.
Context {FC : FontContext}.
Implicit Types (h : heap num) (G : Box num) (ch : list loc).

(** Once a real font id is held the loop body is not entered again. *)
Lemma loop_done (call : loc -> M num int) this k id h :
  id <> NO_FONT ->
  BoxGroup_lastFontId_loop call this k id h = Returns id h.
Proof.
  intros Hid. apply Z.eqb_neq in Hid.
  destruct k; cbn [BoxGroup_lastFontId_loop]; [reflexivity|].
  now rewrite Hid.
Qed.

(** The loop runs over the children behind index [n0], all of which
    answer the sentinel, and then queries the child at [n0]. *)
Lemma loop_reach (call : loc -> M num int) h g G ch (n0 : nat) c :
  h !! g = Some G -> variant G = BoxGroup ch ->
  ch !! n0 = Some c ->
  (forall j c', (n0 < j)%nat -> ch !! j = Some c' -> call c' h = Returns NO_FONT h) ->
  forall k, (n0 < k <= length ch)%nat ->
    BoxGroup_lastFontId_loop call g k NO_FONT h
    = (id' <- call c ;; BoxGroup_lastFontId_loop call g n0 id') h.
Proof.
  intros Hg Hv Hc Hlater. induction k as [|k IH]; intros Hk; [lia|].
  cbn [BoxGroup_lastFontId_loop]. rewrite Z.eqb_refl.
  rewrite (bind_Returns _ _ _ _ _ (children_of_group h g G ch Hg Hv)).
  destruct (decide (k = n0)) as [->|Hne].
  - unfold vector_at. rewrite Hc.
    now rewrite (bind_Returns _ _ h c h) by reflexivity.
  - destruct (lookup_lt_is_Some_2 ch k) as [c' Hc']; [lia|].
    unfold vector_at. rewrite Hc'.
    rewrite (bind_Returns _ _ h c' h) by reflexivity.
    rewrite (bind_Returns _ _ _ _ _ (Hlater k c' ltac:(lia) Hc')).
    apply IH. lia.
Qed.

Lemma group_reach fuel h g G ch (n0 : nat) c :
  h !! g = Some G -> variant G = BoxGroup ch ->
  Z.of_nat (length ch) <= INT_MAX ->
  ch !! n0 = Some c ->
  (forall j c', (n0 < j)%nat -> ch !! j = Some c' ->
                lastFontId fuel c' h = Returns NO_FONT h) ->
  lastFontId (S fuel) g h
  = (id' <- lastFontId fuel c ;;
     BoxGroup_lastFontId_loop (lastFontId fuel) g n0 id') h.
Proof.
  intros Hg Hv Hn Hc Hlater.
  rewrite (lastFontId_group fuel h g G ch Hg Hv).
  unfold BoxGroup_lastFontId.
  rewrite (bind_Returns _ _ _ _ _ (children_of_group h g G ch Hg Hv)).
  rewrite (start_exact ch Hn).
  apply (loop_reach _ h g G ch n0 c Hg Hv Hc Hlater).
  apply lookup_lt_Some in Hc. lia.
Qed.

(** X10.  The scan ends at the last child that answers a real font id:
    when every child behind index [i] answers the sentinel and the child at
    [i] answers [x], the group answers [x].  The children in front of [i]
    are not queried; nothing is assumed about them. *)
Theorem BoxGroup_lastFontId_short_circuit fuel h g G ch (i : nat) c x :
  h !! g = Some G -> variant G = BoxGroup ch ->
  Z.of_nat (length ch) <= INT_MAX ->
  ch !! i = Some c ->
  (forall j c', (i < j)%nat -> ch !! j = Some c' ->
                lastFontId fuel c' h = Returns NO_FONT h) ->
  lastFontId fuel c h = Returns x h -> x <> NO_FONT ->
  lastFontId (S fuel) g h = Returns x h.
Proof.
  intros Hg Hv Hn Hc Hlater Hx Hreal.
  rewrite (group_reach fuel h g G ch i c Hg Hv Hn Hc Hlater).
  rewrite (bind_Returns _ _ _ _ _ Hx).
  now apply loop_done.
Qed.

(** X11.  The scan does not test the handles it follows: when every
    child behind index [i] answers the sentinel and the handle at [i]
    names no object, the group's query has undefined behaviour. *)
Theorem BoxGroup_lastFontId_dangling fuel h g G ch (i : nat) c :
  h !! g = Some G -> variant G = BoxGroup ch ->
  Z.of_nat (length ch) <= INT_MAX ->
  ch !! i = Some c ->
  (forall j c', (i < j)%nat -> ch !! j = Some c' ->
                lastFontId (S fuel) c' h = Returns NO_FONT h) ->
  h !! c = None ->
  lastFontId (S (S fuel)) g h = Undefined.
Proof.
  intros Hg Hv Hn Hc Hlater Hnone.
  rewrite (group_reach (S fuel) h g G ch i c Hg Hv Hn Hc Hlater).
  unfold bind at 1. cbn [lastFontId]. unfold bind at 1, deref.
  now rewrite Hnone.
Qed.

(** X12.  A group may be appended to itself; afterwards its font query
    does not return, whatever the recursion budget. *)
Theorem BoxGroup_add_self_diverges h g G ch :
  h !! g = Some G -> variant G = BoxGroup ch ->
  Z.of_nat (length ch) < INT_MAX ->
  exists h',
    BoxGroup_add g g h = Returns tt h' /\
    forall fuel, lastFontId fuel g h' = OutOfFuel.
Proof.
  intros Hg Hv Hn.
  set (G' := set_variant (BoxGroup (ch ++ [g])) G).
  exists (<[g := G']> h).
  split; [apply (BoxGroup_add_store h g G ch g Hg Hv)|].
  assert (<[g := G']> h !! g = Some G') as Hg'
    by (unfold heap in *; apply lookup_insert_eq).
  induction fuel as [|fuel IH]; [reflexivity|].
  rewrite (group_reach fuel _ g G' (ch ++ [g]) (length ch) g Hg' eq_refl).
  - unfold bind. now rewrite IH.
  - rewrite length_app. cbn. unfold INT_MAX in *. lia.
  - now rewrite lookup_app_r, Nat.sub_diag by lia.
  - intros j c' Hj Hc'. apply lookup_lt_Some in Hc'.
    rewrite length_app in Hc'. cbn in Hc'. lia.
Qed.


End LastFontIdMore.

(** ** Where font ids come from, and what they depend on *)

Section LastFontIdFrames.

Context {num : Type}.
Context {FC : FontContext}.
Implicit Types (h : heap num) (G : Box num) (ch : list loc).

Lemma loop_provenance (call : loc -> M num int) this (P : int -> Prop) h :
  (forall c v h1, call c h = Returns v h1 -> h1 = h /\ P v) ->
  forall k id v h', P id ->
    BoxGroup_lastFontId_loop call this k id h = Returns v h' -> P v.
Proof.
  intros Hcall. induction k as [|k IH]; intros id v h' Hid;
    cbn [BoxGroup_lastFontId_loop].
  - unfold ret. congruence.
  - destruct (id =? NO_FONT); [|unfold ret; congruence].
    unfold children_of, vector_at, bind, deref, ret, undefined.
    destruct (h !! this) as [b|]; [|discriminate].
    destruct (variant b) as [| |ch|]; try discriminate.
    destruct (ch !! k) as [c|]; [|discriminate].
    destruct (call c h) as [v1 h1| | |] eqn:Ec; try discriminate.
    apply Hcall in Ec as [-> Hv1]. now apply IH.
Qed.

(** X14.  Groups and decorations make up no font id: a value returned by
    [lastFontId] is the sentinel or the font id of a glyph box held in the
    store. *)
Theorem lastFontId_provenance fuel : forall p h v h',
  lastFontId fuel p h = Returns v h' ->
  v = NO_FONT \/ exists q b, h !! q = Some b /\ variant b = Glyph v.
Proof.
  induction fuel as [|fuel IH]; intros p h v h'; cbn [lastFontId].
  - discriminate.
  - unfold bind at 1. unfold deref.
    destruct (h !! p) as [b|] eqn:Hp; [|discriminate].
    destruct (variant b) as [|f|ch|base] eqn:Hv.
    + unfold Box_lastFontId, ret. intros [= <- _]. now left.
    + unfold ret, Glyph_lastFontId_result. intros [= <- _].
      right. now exists p, b.
    + unfold BoxGroup_lastFontId, children_of, bind, deref, ret, undefined.
      rewrite Hp, Hv.
      apply (loop_provenance _ p
               (fun v => v = NO_FONT \/
                         exists q b, h !! q = Some b /\ variant b = Glyph v)).
      * intros c v1 h1 Ec. split; [apply (lastFontId_pure _ _ _ _ _ Ec)|].
        apply (IH _ _ _ _ Ec).
      * now left.
    + unfold DecorBox_lastFontId, base_of, bind, deref, ret, undefined.
      rewrite Hp, Hv. apply IH.
Qed.

Lemma same_structure_lookup h h' p :
  same_structure h h' ->
  match h !! p, h' !! p with
  | Some b, Some b' => variant b = variant b'
  | None, None => True
  | _, _ => False
  end.
Proof.
  intros Hs. specialize (Hs p).
  destruct (h !! p), (h' !! p); cbn in Hs; congruence || exact I.
Qed.

Lemma loop_structure (call : loc -> M num int) this h h' :
  same_structure h h' ->
  (forall c h0 v h1, call c h0 = Returns v h1 -> h1 = h0) ->
  (forall c, same_outcome (call c h) (call c h')) ->
  forall k id,
    same_outcome (BoxGroup_lastFontId_loop call this k id h)
                 (BoxGroup_lastFontId_loop call this k id h').
Proof.
  intros Hs Hpure Hcall. induction k as [|k IH]; intros id;
    cbn [BoxGroup_lastFontId_loop].
  - reflexivity.
  - destruct (id =? NO_FONT); [|reflexivity].
    unfold children_of, vector_at, bind, deref, ret, undefined.
    pose proof (same_structure_lookup h h' this Hs) as Hl.
    destruct (h !! this) as [b|], (h' !! this) as [b'|]; try contradiction;
      [|exact I].
    rewrite <- Hl.
    destruct (variant b) as [| |ch|]; try exact I.
    destruct (ch !! k) as [c|]; [|exact I].
    specialize (Hcall c).
    destruct (call c h) as [v1 h1| | |] eqn:E1,
             (call c h') as [v2 h2| | |] eqn:E2;
      cbn in Hcall; try contradiction; try exact I; try assumption.
    apply Hpure in E1, E2. subst. apply IH.
Qed.

Lemma lastFontId_structure fuel : forall p h h',
  same_structure h h' ->
  same_outcome (lastFontId fuel p h) (lastFontId fuel p h').
Proof.
  induction fuel as [|fuel IH]; intros p h h' Hs; cbn [lastFontId].
  - exact I.
  - pose proof (same_structure_lookup h h' p Hs) as Hl.
    destruct (h !! p) as [b|] eqn:Hp; cycle 1.
    { destruct (h' !! p) eqn:Hp'; [contradiction|].
      unfold bind, deref. now rewrite Hp, Hp'. }
    destruct (h' !! p) as [b'|] eqn:Hp'; [|contradiction].
    rewrite (bind_Returns _ _ _ _ _ (deref_Some h p b Hp)).
    rewrite (bind_Returns _ _ _ _ _ (deref_Some h' p b' Hp')).
    rewrite <- Hl.
    destruct (variant b) as [|f|ch|base] eqn:Hv.
    + reflexivity.
    + reflexivity.
    + unfold BoxGroup_lastFontId.
      rewrite (bind_Returns _ _ _ _ _ (children_of_group h p b ch Hp Hv)).
      rewrite (bind_Returns _ _ _ _ _
                 (children_of_group h' p b' ch Hp' (eq_sym Hl))).
      apply loop_structure; [assumption| |].
      * intros c h0 v h1. apply lastFontId_pure.
      * intros c. now apply IH.
    + unfold DecorBox_lastFontId.
      rewrite (bind_Returns _ _ _ _ _ (base_of_decor h p b base Hp Hv)).
      rewrite (bind_Returns _ _ _ _ _
                 (base_of_decor h' p b' base Hp' (eq_sym Hl))).
      now apply IH.
Qed.

(** X15.  Font queries do not read metrics: after [a.copyMetrics(b)]
    every box of the store answers [lastFontId] as it did before. *)
Theorem copyMetrics_keeps_font_queries h (a b : loc) (A B : Box num) :
  h !! a = Some A -> h !! b = Some B ->
  exists h',
    copyMetrics a b h = Returns tt h' /\
    (forall fuel p, same_outcome (lastFontId fuel p h) (lastFontId fuel p h')) /\
    (forall fuel p v, lastFontId fuel p h = Returns v h ->
                      lastFontId fuel p h' = Returns v h').
Proof.
  intros Ha Hb.
  set (A' := mkBox (_width B) (_height B) (_depth B) (_shift B) (variant A)).
  exists (<[a := A']> h).
  split; [apply (copyMetrics_store h a b A B Ha Hb)|].
  assert (same_structure h (<[a := A']> h)) as Hs.
  { intros p. unfold heap in *. destruct (decide (a = p)) as [<-|Hne].
    - now rewrite lookup_insert_eq, Ha.
    - now rewrite lookup_insert_ne. }
  split.
  - intros fuel p. now apply lastFontId_structure.
  - intros fuel p v Ev.
    pose proof (lastFontId_structure fuel p _ _ Hs) as Hso.
    rewrite Ev in Hso.
    destruct (lastFontId fuel p (<[a := A']> h)) as [v' h1| | |] eqn:E';
      cbn in Hso; try contradiction.
    subst v'. f_equal. apply (lastFontId_pure _ _ _ _ _ E').
Qed.

End LastFontIdFrames.

(** ** Families of constants *)

(** X16.  Within the alignment, script, atom type, delimiter, style and
    unit families no two enumerators have the same value; the alignment,
    script, delimiter and unit families count up from 0 without gap.
    Among the space sizes [QUAD] and [THICKMUSKIP] are both 3. *)
Theorem TeXConstants_families :
  TeXFamilies.family "ALIGN_" = [0; 1; 2; 3; 4; 5] /\
  TeXFamilies.family "SCRIPT_" = [0; 1; 2] /\
  TeXFamilies.family "DELIM_" = [0; 1; 2; 3; 4; 5; 6; 7; 8; 9; 10] /\
  TeXFamilies.family "UNIT_" = [0; 1; 2; 3; 4; 5; 6; 7; 8; 9; 10; 11; 12; 13] /\
  TeXFamilies.distinct (TeXFamilies.family "TYPE_") = true /\
  TeXFamilies.distinct (TeXFamilies.family "STYLE_") = true /\
  TeXFamilies.space_sizes
  = [("THINMUSKIP", 1); ("MEDMUSKIP", 2); ("THICKMUSKIP", 3);
     ("NEGTHINMUSKIP", -1); ("NEGMEDMUSKIP", -2); ("NEGTHICKMUSKP", -3);
     ("QUAD", 3)]%string /\
  TeXFamilies.distinct (map snd TeXFamilies.space_sizes) = false.
Proof. repeat split; vm_compute; reflexivity. Qed.

(** ** Worked instances of the further properties *)

Module ExtraInstances.

#[local] Existing Instance Sample.font_context.




Lemma indexOf_range_witness :
  Z.of_nat (length [3; 4; 5]) <= 2 ^ 63 /\
  (indexOf [3; 4; 5] 4 = -1 \/
   0 <= indexOf [3; 4; 5] 4 < Z.of_nat (length [3; 4; 5])).
Proof.
  assert (Z.of_nat (length [3; 4; 5]) <= 2 ^ 63) as Hn by (cbn; lia).
  split; [exact Hn|]. exact (indexOf_range [3; 4; 5] 4 Hn).
Defined.

Lemma indexOf_vector_insert_witness :
  Z.of_nat (length [3; 4; 5]) < INT_MAX /\ (7 ∉ [3; 4; 5]) /\
  0 <= 1 <= Z.of_nat (length [3; 4; 5]) /\
  exists v', vector_insert [3; 4; 5] 1 7 = Some v' /\ indexOf v' 7 = 1.
Proof.
  assert (Z.of_nat (length [3; 4; 5]) < INT_MAX) as Hn
    by (unfold INT_MAX; cbn; lia).
  assert (7 ∉ [3; 4; 5]) as Hx by (apply (bool_decide_unpack _); vm_compute; exact I).
  assert (0 <= 1 <= Z.of_nat (length [3; 4; 5])) as Hp by (cbn; lia).
  split; [exact Hn|]. split; [exact Hx|]. split; [exact Hp|].
  exact (indexOf_vector_insert [3; 4; 5] 7 1 Hn Hx Hp).
Defined.

Lemma copyMetrics_idempotent_witness :
  Sample.store !! 1%positive = Some Sample.G1 /\
  Sample.store !! 2%positive = Some Sample.B2 /\
  (copyMetrics 1%positive 2%positive ;;; copyMetrics 1%positive 2%positive)
    Sample.store
  = copyMetrics 1%positive 2%positive Sample.store.
Proof.
  split; [reflexivity|]. split; [reflexivity|].
  exact (copyMetrics_idempotent Sample.store 1%positive 2%positive
           Sample.G1 Sample.B2 eq_refl eq_refl).
Defined.

Lemma copyMetrics_transfers_witness :
  Sample.store !! 3%positive = Some (Sample.box 5 6 7 8 Plain) /\
  Sample.store !! 2%positive = Some Sample.B2 /\
  Sample.store !! 1%positive = Some Sample.G1 /\
  exists h' C',
    (copyMetrics 3%positive 2%positive ;;; copyMetrics 1%positive 3%positive)
      Sample.store = Returns tt h' /\
    h' !! 1%positive = Some C' /\
    _width C' = _width Sample.B2 /\ _height C' = _height Sample.B2 /\
    _depth C' = _depth Sample.B2 /\ _shift C' = _shift Sample.B2 /\
    variant C' = variant Sample.G1.
Proof.
  split; [reflexivity|]. split; [reflexivity|]. split; [reflexivity|].
  exact (copyMetrics_transfers Sample.store 3%positive 2%positive 1%positive
           _ Sample.B2 Sample.G1 eq_refl eq_refl eq_refl).
Defined.

Lemma copyMetrics_dangling_witness :
  Sample.store !! 9%positive = None /\
  copyMetrics 1%positive 9%positive Sample.store = Undefined /\
  copyMetrics 9%positive 1%positive Sample.store = Undefined.
Proof.
  assert (Sample.store !! 9%positive = None) as Hd by reflexivity.
  split; [exact Hd|]. split.
  - exact (copyMetrics_dangling Sample.store 1%positive 9%positive (or_introl Hd)).
  - exact (copyMetrics_dangling Sample.store 9%positive 1%positive (or_intror Hd)).
Defined.

Lemma add_all_appends_witness :
  Sample.store !! 1%positive = Some Sample.G1 /\
  variant Sample.G1 = BoxGroup [2; 3]%positive /\
  add_all 1%positive [4; 6]%positive Sample.store
  = Returns tt
      (<[1%positive := mkBox (_width Sample.G1) (_height Sample.G1)
                         (_depth Sample.G1) (_shift Sample.G1)
                         (BoxGroup ([2; 3]%positive ++ [4; 6]%positive))]> Sample.store).
Proof.
  split; [reflexivity|]. split; [reflexivity|].
  exact (add_all_appends [4; 6]%positive Sample.store 1%positive Sample.G1
           [2; 3]%positive eq_refl eq_refl).
Defined.

Lemma BoxGroup_lastFontId_short_circuit_witness :
  SampleExtra.dangling_front !! 1%positive
  = Some (Sample.box 0 0 0 0 (BoxGroup [9; 2; 3]%positive)) /\
  SampleExtra.dangling_front !! 9%positive = None /\
  Z.of_nat (length [9; 2; 3]%positive) <= INT_MAX /\
  [9; 2; 3]%positive !! 1%nat = Some 2%positive /\
  (forall j c', (1 < j)%nat -> [9; 2; 3]%positive !! j = Some c' ->
     lastFontId 1 c' SampleExtra.dangling_front
     = Returns NO_FONT SampleExtra.dangling_front) /\
  lastFontId 1 2%positive SampleExtra.dangling_front
  = Returns 5 SampleExtra.dangling_front /\
  5 <> NO_FONT /\
  lastFontId 2 1%positive SampleExtra.dangling_front
  = Returns 5 SampleExtra.dangling_front.
Proof.
  assert (Z.of_nat (length [9; 2; 3]%positive) <= INT_MAX) as Hn
    by (unfold INT_MAX; cbn; lia).
  assert (forall j c', (1 < j)%nat -> [9; 2; 3]%positive !! j = Some c' ->
            lastFontId 1 c' SampleExtra.dangling_front
            = Returns NO_FONT SampleExtra.dangling_front) as Hlater.
  { intros j c' Hj Hc'. destruct j as [|[|[|j]]]; try lia.
    - cbn in Hc'. injection Hc' as <-. reflexivity.
    - cbn in Hc'. discriminate Hc'. }
  assert (5 <> NO_FONT) as Hx by (cbn; lia).
  split; [reflexivity|]. split; [reflexivity|]. split; [exact Hn|].
  split; [reflexivity|]. split; [exact Hlater|]. split; [reflexivity|].
  split; [exact Hx|].
  exact (BoxGroup_lastFontId_short_circuit 1 SampleExtra.dangling_front
           1%positive _ [9; 2; 3]%positive 1 2%positive 5
           eq_refl eq_refl Hn eq_refl Hlater eq_refl Hx).
Defined.

Lemma BoxGroup_lastFontId_dangling_witness :
  SampleExtra.dangling_back !! 1%positive
  = Some (Sample.box 0 0 0 0 (BoxGroup [2; 9]%positive)) /\
  Z.of_nat (length [2; 9]%positive) <= INT_MAX /\
  [2; 9]%positive !! 1%nat = Some 9%positive /\
  SampleExtra.dangling_back !! 9%positive = None /\
  lastFontId 2 1%positive SampleExtra.dangling_back = Undefined.
Proof.
  assert (Z.of_nat (length [2; 9]%positive) <= INT_MAX) as Hn
    by (unfold INT_MAX; cbn; lia).
  assert (forall j c', (1 < j)%nat -> [2; 9]%positive !! j = Some c' ->
            lastFontId 1 c' SampleExtra.dangling_back
            = Returns NO_FONT SampleExtra.dangling_back) as Hlater.
  { intros j c' Hj Hc'. destruct j as [|[|j]]; try lia.
    cbn in Hc'. discriminate Hc'. }
  split; [reflexivity|]. split; [exact Hn|]. split; [reflexivity|].
  split; [reflexivity|].
  exact (BoxGroup_lastFontId_dangling 0 SampleExtra.dangling_back
           1%positive _ [2; 9]%positive 1 9%positive
           eq_refl eq_refl Hn eq_refl Hlater eq_refl).
Defined.

Lemma BoxGroup_add_self_diverges_witness :
  Sample.store !! 1%positive = Some Sample.G1 /\
  variant Sample.G1 = BoxGroup [2; 3]%positive /\
  Z.of_nat (length [2; 3]%positive) < INT_MAX /\
  exists h',
    BoxGroup_add 1%positive 1%positive Sample.store = Returns tt h' /\
    forall fuel, lastFontId fuel 1%positive h' = OutOfFuel.
Proof.
  assert (Z.of_nat (length [2; 3]%positive) < INT_MAX) as Hn
    by (unfold INT_MAX; cbn; lia).
  split; [reflexivity|]. split; [reflexivity|]. split; [exact Hn|].
  exact (BoxGroup_add_self_diverges Sample.store 1%positive Sample.G1
           [2; 3]%positive eq_refl eq_refl Hn).
Defined.


Lemma lastFontId_provenance_witness :
  lastFontId 4 7%positive Sample.store = Returns 5 Sample.store /\
  (5 = NO_FONT \/
   exists q b, Sample.store !! q = Some b /\ variant b = Glyph 5).
Proof.
  assert (lastFontId 4 7%positive Sample.store = Returns 5 Sample.store)
    as E by reflexivity.
  split; [exact E|].
  exact (lastFontId_provenance 4 7%positive Sample.store 5 Sample.store E).
Defined.

Lemma copyMetrics_keeps_font_queries_witness :
  Sample.store !! 1%positive = Some Sample.G1 /\
  Sample.store !! 2%positive = Some Sample.B2 /\
  exists h',
    copyMetrics 1%positive 2%positive Sample.store = Returns tt h' /\
    (forall fuel p,
        same_outcome (lastFontId fuel p Sample.store) (lastFontId fuel p h')) /\
    (forall fuel p v, lastFontId fuel p Sample.store = Returns v Sample.store ->
                      lastFontId fuel p h' = Returns v h').
Proof.
  split; [reflexivity|]. split; [reflexivity|].
  exact (copyMetrics_keeps_font_queries Sample.store 1%positive 2%positive
           Sample.G1 Sample.B2 eq_refl eq_refl).
Defined.

End ExtraInstances.
